(** * TrustOS: the mbedtls platform shim

    A model of [crates/mbedtls-platform-support/src/rust_printf.c] (the
    three inert formatted-output functions) and of the declarations of
    [kernel/mbedtls-include/*.h], with the properties the design document
    states about them.

    The C functions are embedded in a small monad over a byte-addressed
    memory: a computation takes the memory it starts in and yields the
    value it returns, the memory it leaves, and the list of the accesses
    it made (loads, stores, console output), in program order. *)

From Stdlib Require Import ZArith NArith Strings.Byte.
From stdpp Require Import gmap strings list.

Local Open Scope Z_scope.

(** ** Memory, accesses and the monad of C computations *)

Module Mem.

(** An address. [char *], [const char *] and [void *] are all addresses;
    the null pointer is address zero. *)
Definition ptr := Z.
Definition NULL : ptr := 0.

(** [size_t] is an unsigned integer: every value of it is an [N]. The
    functions below only compare it with zero, so its width plays no role. *)
Definition size_t := N.

(** ['\0'] *)
Definition nul : byte := x00.

(** A pointer used as a condition ([if (s)]) is true when it is not null. *)
Definition nonnull (p : ptr) : bool := negb (p =? NULL).

(** [&p[i]] for a [char *p]: [sizeof(char)] is 1. *)
Definition index (p : ptr) (i : Z) : ptr := p + i * 1.

(** What a computation can do to the world outside its locals. *)
Inductive event : Type :=
| EvLoad (a : ptr)
| EvStore (a : ptr) (b : byte)
| EvOut (b : byte).

Definition is_load (e : event) : bool :=
  match e with EvLoad _ => true | _ => false end.

(** The address a memory access goes to. *)
Definition touched (e : event) : option ptr :=
  match e with
  | EvLoad a | EvStore a _ => Some a
  | EvOut _ => None
  end.

(** The outcome of running a computation. *)
Record result (A : Type) : Type := Result {
  retval : A;                (* the value returned *)
  final : gmap Z byte;       (* the memory left behind *)
  events : list event;       (* the accesses made, oldest first *)
}.
Arguments Result {A} _ _ _.
Arguments retval {A} _.
Arguments final {A} _.
Arguments events {A} _.

Definition M (A : Type) : Type := gmap Z byte → result A.

(** [mret v] does nothing; [x ← c; k] runs [c], then [k] in the memory
    [c] left, and makes the accesses of [c] followed by those of [k]. *)
#[global] Instance M_ret : MRet M :=
  λ A v m, Result v m [].

#[global] Instance M_bind : MBind M :=
  λ A B k c m,
    let r1 := c m in
    let r2 := k (retval r1) (final r1) in
    Result (retval r2) (final r2) (events r1 ++ events r2).

(** [*a = b] *)
Definition store (a : ptr) (b : byte) : M unit :=
  λ m, Result tt (<[a := b]> m) [EvStore a b].

(** [*a]; a byte that was never written reads as zero. The stubs never
    load and never print: [load] and [putc] are what a formatter that did
    its work would be written with. *)
Definition load (a : ptr) : M byte :=
  λ m, Result (default x00 (m !! a)) m [EvLoad a].

(** One byte to the console. *)
Definition putc (b : byte) : M unit :=
  λ m, Result tt m [EvOut b].

(** A list of accesses is free of faults, given the set of addresses that
    are mapped, when every address it touches is mapped and is not null. *)
Definition access_ok (mapped : gset Z) (e : event) : bool :=
  match touched e with
  | Some a => nonnull a && bool_decide (a ∈ mapped)
  | None => true
  end.

Definition faultless (mapped : gset Z) (t : list event) : bool :=
  forallb (access_ok mapped) t.

(** The caller's buffer: [n] bytes from [s] on, nothing when [s] is null. *)
Definition in_buffer (s : ptr) (n : size_t) (a : ptr) : Prop :=
  s ≠ NULL ∧ s ≤ a < s + Z.of_N n.

End Mem.

(** ** rust_printf.c *)

Module Formatter.
Import Mem.

(** A value passed through [...]: after the default promotions, an
    integer or a pointer. *)
Inductive cval : Type :=
| VInt (z : Z)
| VPtr (p : ptr).

(** A [va_list]: the arguments still to be fetched. *)
Definition va_list := list cval.

(** [int mbedtls_printf(const char *fmt, ...)] *)
Definition mbedtls_printf (fmt : ptr) (args : list cval) : M Z :=
  let _ := fmt in
  mret 0.

(** [int mbedtls_snprintf(char *s, size_t n, const char *fmt, ...)] *)
Definition mbedtls_snprintf (s : ptr) (n : size_t) (fmt : ptr)
    (args : list cval) : M Z :=
  let _ := fmt in
  (if (0 <? n)%N && nonnull s then store (index s 0) nul else mret tt);;
  mret 0.

(** [int mbedtls_vsnprintf(char *s, size_t n, const char *fmt, va_list ap)] *)
Definition mbedtls_vsnprintf (s : ptr) (n : size_t) (fmt : ptr)
    (ap : va_list) : M Z :=
  let _ := fmt in
  let _ := ap in
  (if (0 <? n)%N && nonnull s then store (index s 0) nul else mret tt);;
  mret 0.

(** A call of one of the three entry points, with its actual arguments. *)
Inductive call : Type :=
| CallPrintf (fmt : ptr) (args : list cval)
| CallSnprintf (s : ptr) (n : size_t) (fmt : ptr) (args : list cval)
| CallVsnprintf (s : ptr) (n : size_t) (fmt : ptr) (ap : va_list).

Definition run (c : call) : M Z :=
  match c with
  | CallPrintf fmt args => mbedtls_printf fmt args
  | CallSnprintf s n fmt args => mbedtls_snprintf s n fmt args
  | CallVsnprintf s n fmt ap => mbedtls_vsnprintf s n fmt ap
  end.

(** Calls made one after the other, each in the memory the one before it
    left. *)
Fixpoint run_all (cs : list call) : M (list Z) :=
  match cs with
  | [] => mret []
  | c :: cs' => v ← run c; vs ← run_all cs'; mret (v :: vs)
  end.

(** The buffer and the capacity a call was given, if it takes a buffer. *)
Definition buffer_of (c : call) : option (ptr * size_t) :=
  match c with
  | CallPrintf _ _ => None
  | CallSnprintf s n _ _ | CallVsnprintf s n _ _ => Some (s, n)
  end.

(** The test [n > 0 && s] of the two buffer-taking stubs. *)
Definition may_write (s : ptr) (n : size_t) : bool :=
  (0 <? n)%N && nonnull s.

(** The addresses that are not part of the buffer a call was given: all
    of them for a call that takes no buffer. *)
Definition outside_buffer (c : call) (a : ptr) : Prop :=
  match buffer_of c with
  | Some (s, n) => ¬ in_buffer s n a
  | None => True
  end.

(** The address a call stores the terminator to, when it stores it. *)
Definition write_target (c : call) : option ptr :=
  match buffer_of c with
  | Some (s, n) => if may_write s n then Some s else None
  | None => None
  end.

(** A ten-byte buffer at address 4096 that holds ['x'] everywhere, and
    nothing else mapped. *)
Definition ten_x : gmap Z byte :=
  list_to_map ((λ i, (4096 + i, x78)) <$> [0; 1; 2; 3; 4; 5; 6; 7; 8; 9]).

(** Which entry point a call goes to. *)
Inductive stub : Type := Printf | Snprintf | Vsnprintf.

Definition stub_of (c : call) : stub :=
  match c with
  | CallPrintf _ _ => Printf
  | CallSnprintf _ _ _ _ => Snprintf
  | CallVsnprintf _ _ _ _ => Vsnprintf
  end.

End Formatter.

(** ** The declarations: kernel/mbedtls-include/*.h and rust_printf.c *)

Module Decls.

Local Open Scope string_scope.

(** The C types the headers use. [size_t] and [va_list] come from the
    toolchain's [stddef.h] and [stdarg.h] and stay names. *)
Inductive ctype : Type :=
| TVoid
| TChar
| TInt
| TUInt
| TLong
| TLongLong
| TNamed (name : string)
| TStruct (tag : string)
| TConst (t : ctype)
| TPtr (t : ctype).

(** One declaration of a file. A function carries its parameters with
    the names the file gives them; [variadic] is the trailing [...]. *)
Inductive decl : Type :=
| DFun (name : string) (result : ctype) (params : list (string * ctype))
    (variadic : bool)
| DTypedef (name : string) (t : ctype)
| DStruct (tag : string) (fields : list (string * ctype))
| DDefine (name : string) (value : Z).

(** What a declaration binds: for a function its name, return type and
    parameter types (parameter names are not part of a C prototype). *)
Inductive signature : Type :=
| SFun (name : string) (result : ctype) (param_types : list ctype)
    (variadic : bool)
| STypedef (name : string) (t : ctype)
| SStruct (tag : string) (fields : list (string * ctype))
| SDefine (name : string) (value : Z).

Definition signature_of (d : decl) : signature :=
  match d with
  | DFun name result params variadic =>
      SFun name result (snd <$> params) variadic
  | DTypedef name t => STypedef name t
  | DStruct tag fields => SStruct tag fields
  | DDefine name value => SDefine name value
  end.

Definition decl_name (d : decl) : string :=
  match d with
  | DFun name _ _ _ | DTypedef name _ | DStruct name _ | DDefine name _ =>
      name
  end.

#[global] Instance ctype_eq_dec : EqDecision ctype.
Proof. solve_decision. Defined.

#[global] Instance signature_eq_dec : EqDecision signature.
Proof. solve_decision. Defined.

Definition t_size_t : ctype := TNamed "size_t".
Definition t_va_list : ctype := TNamed "va_list".
Definition t_time_t : ctype := TNamed "time_t".
Definition char_p : ctype := TPtr TChar.
Definition const_char_p : ctype := TPtr (TConst TChar).
Definition void_p : ctype := TPtr TVoid.
Definition const_void_p : ctype := TPtr (TConst TVoid).
Definition tm_p : ctype := TPtr (TStruct "tm").
Definition const_time_t_p : ctype := TPtr (TConst t_time_t).

(** [kernel/mbedtls-include/stdio.h] *)
Definition stdio_h : list decl := [
  DFun "vsnprintf" TInt
    [("s", char_p); ("n", t_size_t); ("format", const_char_p);
     ("arg", t_va_list)] false;
  DFun "snprintf" TInt
    [("s", char_p); ("n", t_size_t); ("format", const_char_p)] true;
  DFun "printf" TInt [("format", const_char_p)] true;
  DFun "mbedtls_vsnprintf" TInt
    [("s", char_p); ("n", t_size_t); ("format", const_char_p);
     ("arg", t_va_list)] false;
  DFun "mbedtls_snprintf" TInt
    [("s", char_p); ("n", t_size_t); ("format", const_char_p)] true
].

(** [kernel/mbedtls-include/stdlib.h] *)
Definition stdlib_h : list decl := [
  DFun "mbedtls_platform_calloc" void_p
    [("n", t_size_t); ("size", t_size_t)] false;
  DFun "mbedtls_platform_free" TVoid [("ptr", void_p)] false;
  DFun "malloc" void_p [("size", t_size_t)] false;
  DFun "calloc" void_p [("n", t_size_t); ("size", t_size_t)] false;
  DFun "realloc" void_p [("ptr", void_p); ("size", t_size_t)] false;
  DFun "free" TVoid [("ptr", void_p)] false;
  DDefine "RAND_MAX" 32767;
  DFun "rand" TInt [] false;
  DFun "srand" TVoid [("seed", TUInt)] false
].

(** [kernel/mbedtls-include/string.h] *)
Definition string_h : list decl := [
  DFun "memcpy" void_p
    [("dest", void_p); ("src", const_void_p); ("n", t_size_t)] false;
  DFun "memmove" void_p
    [("dest", void_p); ("src", const_void_p); ("n", t_size_t)] false;
  DFun "memset" void_p [("s", void_p); ("c", TInt); ("n", t_size_t)] false;
  DFun "memcmp" TInt
    [("s1", const_void_p); ("s2", const_void_p); ("n", t_size_t)] false;
  DFun "strlen" t_size_t [("s", const_char_p)] false;
  DFun "strnlen" t_size_t [("s", const_char_p); ("maxlen", t_size_t)] false;
  DFun "strcmp" TInt [("s1", const_char_p); ("s2", const_char_p)] false;
  DFun "strncmp" TInt
    [("s1", const_char_p); ("s2", const_char_p); ("n", t_size_t)] false;
  DFun "strcpy" char_p [("dest", char_p); ("src", const_char_p)] false;
  DFun "strncpy" char_p
    [("dest", char_p); ("src", const_char_p); ("n", t_size_t)] false;
  DFun "strchr" char_p [("s", const_char_p); ("c", TInt)] false;
  DFun "strstr" char_p
    [("haystack", const_char_p); ("needle", const_char_p)] false
].

(** The members of [struct tm], in order. *)
Definition tm_fields : list (string * ctype) := [
  ("tm_sec", TInt); ("tm_min", TInt); ("tm_hour", TInt);
  ("tm_mday", TInt); ("tm_mon", TInt); ("tm_year", TInt);
  ("tm_wday", TInt); ("tm_yday", TInt); ("tm_isdst", TInt)
].

(** [kernel/mbedtls-include/time.h] *)
Definition time_h : list decl := [
  DTypedef "time_t" TLongLong;
  DTypedef "clock_t" TLong;
  DStruct "tm" tm_fields;
  DFun "time" t_time_t [("t", TPtr t_time_t)] false;
  DFun "gmtime" tm_p [("timer", const_time_t_p)] false;
  DFun "localtime" tm_p [("timer", const_time_t_p)] false
].

(** The headers together. *)
Definition headers : list decl :=
  stdio_h ++ stdlib_h ++ string_h ++ time_h.

(** [crates/mbedtls-platform-support/src/rust_printf.c]: a function
    definition declares the function too. *)
Definition rust_printf_c : list decl := [
  DFun "mbedtls_printf" TInt [("fmt", const_char_p)] true;
  DFun "mbedtls_snprintf" TInt
    [("s", char_p); ("n", t_size_t); ("fmt", const_char_p)] true;
  DFun "mbedtls_vsnprintf" TInt
    [("s", char_p); ("n", t_size_t); ("fmt", const_char_p);
     ("ap", t_va_list)] false
].

(** Everything the sources declare. *)
Definition declaration_surface : list decl :=
  headers ++ rust_printf_c.

(** The binding contract, as section 6 of the design document lists it
    (this table follows the document, not the sources). *)
Definition binding_contract : list decl := [
  DFun "malloc" void_p [("size", t_size_t)] false;
  DFun "calloc" void_p [("n", t_size_t); ("size", t_size_t)] false;
  DFun "realloc" void_p [("ptr", void_p); ("size", t_size_t)] false;
  DFun "free" TVoid [("ptr", void_p)] false;
  DFun "mbedtls_platform_calloc" void_p
    [("n", t_size_t); ("size", t_size_t)] false;
  DFun "mbedtls_platform_free" TVoid [("ptr", void_p)] false;
  DFun "memcpy" void_p
    [("dest", void_p); ("src", const_void_p); ("n", t_size_t)] false;
  DFun "memmove" void_p
    [("dest", void_p); ("src", const_void_p); ("n", t_size_t)] false;
  DFun "memset" void_p [("s", void_p); ("c", TInt); ("n", t_size_t)] false;
  DFun "memcmp" TInt
    [("s1", const_void_p); ("s2", const_void_p); ("n", t_size_t)] false;
  DFun "strlen" t_size_t [("s", const_char_p)] false;
  DFun "strnlen" t_size_t [("s", const_char_p); ("maxlen", t_size_t)] false;
  DFun "strcmp" TInt [("s1", const_char_p); ("s2", const_char_p)] false;
  DFun "strncmp" TInt
    [("s1", const_char_p); ("s2", const_char_p); ("n", t_size_t)] false;
  DFun "strcpy" char_p [("dest", char_p); ("src", const_char_p)] false;
  DFun "strncpy" char_p
    [("dest", char_p); ("src", const_char_p); ("n", t_size_t)] false;
  DFun "strchr" char_p [("s", const_char_p); ("c", TInt)] false;
  DFun "strstr" char_p
    [("haystack", const_char_p); ("needle", const_char_p)] false;
  DTypedef "time_t" TLongLong;
  DTypedef "clock_t" TLong;
  DStruct "tm" tm_fields;
  DFun "time" t_time_t [("t", TPtr t_time_t)] false;
  DFun "gmtime" tm_p [("timer", const_time_t_p)] false;
  DFun "localtime" tm_p [("timer", const_time_t_p)] false;
  DFun "printf" TInt [("format", const_char_p)] true;
  DFun "snprintf" TInt
    [("s", char_p); ("n", t_size_t); ("format", const_char_p)] true;
  DFun "vsnprintf" TInt
    [("s", char_p); ("n", t_size_t); ("format", const_char_p);
     ("arg", t_va_list)] false;
  DFun "mbedtls_printf" TInt [("fmt", const_char_p)] true;
  DFun "mbedtls_snprintf" TInt
    [("s", char_p); ("n", t_size_t); ("fmt", const_char_p)] true;
  DFun "mbedtls_vsnprintf" TInt
    [("s", char_p); ("n", t_size_t); ("fmt", const_char_p);
     ("ap", t_va_list)] false
].

(** The six formatted-output symbols. *)
Definition formatted_output_symbols : list string := [
  "printf"; "snprintf"; "vsnprintf";
  "mbedtls_printf"; "mbedtls_snprintf"; "mbedtls_vsnprintf"
].

(** [ds] declares what [d] binds. *)
Definition declares (ds : list decl) (d : decl) : Prop :=
  signature_of d ∈ (signature_of <$> ds).

(** [d] does not clash with [ds]: it binds a name [ds] does not bind, or
    binds it the way [ds] does. *)
Definition agrees_with (ds : list decl) (d : decl) : Prop :=
  decl_name d ∈ (decl_name <$> ds) → declares ds d.

(** Some declaration of [ds] binds [name], and binds it the way
    [contract] does. *)
Definition declared_as (contract ds : list decl) (name : string) : Prop :=
  Exists (λ d, decl_name d = name ∧ declares contract d) ds.

#[global] Instance declares_dec ds d : Decision (declares ds d).
Proof. unfold declares. apply _. Defined.

#[global] Instance agrees_with_dec ds d : Decision (agrees_with ds d).
Proof. unfold agrees_with. apply _. Defined.

#[global] Instance declared_as_dec contract ds name :
  Decision (declared_as contract ds name).
Proof. unfold declared_as. apply _. Defined.

End Decls.

(** ** Series of calls and the caller's side of the contract *)

Module Series.
Import Mem Formatter.

(** The addresses a series of calls stores the terminator to, in the
    order of the calls. *)
Definition targets (cs : list call) : list ptr := omap write_target cs.

(** The buffer a call was given is mapped: every byte of it, when the
    pointer is not null. A call without a buffer asks for nothing. *)
Definition buffer_mapped (mapped : gset Z) (c : call) : Prop :=
  match buffer_of c with
  | Some (s, n) => ∀ a, in_buffer s n a → a ∈ mapped
  | None => True
  end.

(** Two buffers of capacity four, one at 4096 and one at 4100. *)
Definition two_buffers : gset Z :=
  list_to_set [4096; 4097; 4098; 4099; 4100; 4101; 4102; 4103].

End Series.

(** ** Scopes: which type names a file may use where *)

Module Scope.
Import Decls.

Local Open Scope string_scope.

(** The type names a type mentions; a structure counts under its tag. *)
Fixpoint type_names (t : ctype) : list string :=
  match t with
  | TNamed name => [name]
  | TStruct tag => ["struct " +:+ tag]
  | TConst t' | TPtr t' => type_names t'
  | TVoid | TChar | TInt | TUInt | TLong | TLongLong => []
  end.

(** The type names a declaration needs to be in scope. *)
Definition decl_uses (d : decl) : list string :=
  match d with
  | DFun _ result params _ =>
      type_names result ++ (params ≫= λ p, type_names (snd p))
  | DTypedef _ t => type_names t
  | DStruct _ fields => fields ≫= λ f, type_names (snd f)
  | DDefine _ _ => []
  end.

(** The type names a declaration brings into scope. *)
Definition decl_defines (d : decl) : list string :=
  match d with
  | DTypedef name _ => [name]
  | DStruct tag _ => ["struct " +:+ tag]
  | DFun _ _ _ _ | DDefine _ _ => []
  end.

(** Reading the declarations top to bottom, each one only uses type names
    that are known by then. *)
Fixpoint well_scoped (known : list string) (ds : list decl) : bool :=
  match ds with
  | [] => true
  | d :: ds' =>
      forallb (λ name, bool_decide (name ∈ known)) (decl_uses d)
      && well_scoped (decl_defines d ++ known) ds'
  end.

(** A source file: the toolchain headers it includes, then its
    declarations. *)
Record file : Type := File {
  file_name : string;
  includes : list string;
  decls : list decl;
}.

Definition stdio_h_file : file :=
  File "stdio.h" ["stddef.h"; "stdarg.h"] stdio_h.
Definition stdlib_h_file : file :=
  File "stdlib.h" ["stddef.h"] stdlib_h.
Definition string_h_file : file :=
  File "string.h" ["stddef.h"] string_h.
Definition time_h_file : file :=
  File "time.h" ["stddef.h"] time_h.
Definition rust_printf_c_file : file :=
  File "rust_printf.c" ["stdarg.h"; "stddef.h"] rust_printf_c.

Definition files : list file :=
  [stdio_h_file; stdlib_h_file; string_h_file; time_h_file;
   rust_printf_c_file].

(** The type names in scope at the top of a file, given what each
    toolchain header provides. *)
Definition initial_scope (provides : string → list string) (f : file) :
    list string :=
  includes f ≫= provides.

(** What the toolchain headers are relied on for: [size_t] from
    [stddef.h], [va_list] from [stdarg.h], and nothing else. *)
Definition least_toolchain (h : string) : list string :=
  if decide (h = "stddef.h") then ["size_t"]
  else if decide (h = "stdarg.h") then ["va_list"]
  else [].

(** The parameter and return types of a function declaration, without its
    name. *)
Definition fun_type (d : decl) : option (ctype * list ctype * bool) :=
  match d with
  | DFun _ result params variadic => Some (result, snd <$> params, variadic)
  | DTypedef _ _ | DStruct _ _ | DDefine _ _ => None
  end.

(** The type under which [ds] declares the function [name]. *)
Definition type_of_fun (ds : list decl) (name : string) :
    option (ctype * list ctype * bool) :=
  d ← snd <$> list_find (λ d, decl_name d = name) ds; fun_type d.

(** The library's own hooks and the C library functions they stand for. *)
Definition hooks : list (string * string) := [
  ("mbedtls_printf", "printf");
  ("mbedtls_snprintf", "snprintf");
  ("mbedtls_vsnprintf", "vsnprintf");
  ("mbedtls_platform_calloc", "calloc");
  ("mbedtls_platform_free", "free")
].

End Scope.

(** ** Properties of the no-op formatter *)

Import Mem Formatter.

Section Guard.

Variables (s : ptr) (n : size_t).

Lemma nonnull_true : nonnull s = true ↔ s ≠ NULL.
Proof.
  unfold nonnull. rewrite negb_true_iff. apply Z.eqb_neq.
Qed.

Lemma may_write_true : may_write s n = true ↔ (0 < n)%N ∧ s ≠ NULL.
Proof.
  unfold may_write.
  rewrite andb_true_iff, N.ltb_lt, nonnull_true. tauto.
Qed.

Lemma may_write_false : may_write s n = false ↔ n = 0%N ∨ s = NULL.
Proof.
  unfold may_write, nonnull.
  rewrite andb_false_iff, N.ltb_ge, negb_false_iff, Z.eqb_eq. lia.
Qed.

Lemma index_0 : index s 0 = s.
Proof. unfold index. lia. Qed.

End Guard.

(** Unfolds the monad in the body of a buffer-taking stub and splits on
    its guard. *)
Ltac run_guarded :=
  unfold may_write, mbind, M_bind;
  match goal with
  | |- context [(0 <? ?n)%N && nonnull ?s] =>
      destruct ((0 <? n)%N && nonnull s); cbn; [by rewrite index_0 | done]
  end.

(** What a run of each stub comes to. *)
Lemma printf_run (fmt : ptr) (args : list cval) (m : gmap Z byte) :
  mbedtls_printf fmt args m = Result 0 m [].
Proof. reflexivity. Qed.

Lemma snprintf_run (s : ptr) (n : size_t) (fmt : ptr) (args : list cval)
    (m : gmap Z byte) :
  mbedtls_snprintf s n fmt args m =
    if may_write s n then Result 0 (<[s := nul]> m) [EvStore s nul]
    else Result 0 m [].
Proof. unfold mbedtls_snprintf. run_guarded. Qed.

Lemma vsnprintf_run (s : ptr) (n : size_t) (fmt : ptr) (ap : va_list)
    (m : gmap Z byte) :
  mbedtls_vsnprintf s n fmt ap m =
    if may_write s n then Result 0 (<[s := nul]> m) [EvStore s nul]
    else Result 0 m [].
Proof. unfold mbedtls_vsnprintf. run_guarded. Qed.

(** The scenarios of the design document. *)
Example scenario_1 :
  let r := mbedtls_snprintf 4096 10%N 8192 [VInt 42] ten_x in
  retval r = 0 ∧ final r !! 4096 = Some nul ∧ final r !! 4097 = Some x78.
Proof. vm_compute. done. Qed.

Example scenario_2 :
  let r := mbedtls_snprintf NULL 10%N 8192 [] ten_x in
  retval r = 0 ∧ final r = ten_x ∧ events r = [].
Proof. vm_compute. done. Qed.

Example scenario_3 :
  let r := mbedtls_snprintf 4096 0%N 8192 [] ten_x in
  retval r = 0 ∧ final r = ten_x ∧ events r = [].
Proof. vm_compute. done. Qed.

Example scenario_4 :
  mbedtls_vsnprintf 4096 5%N 8192 [VPtr 12288; VInt (-1)] ten_x
  = mbedtls_snprintf 4096 10%N 8192 [VInt 42] ten_x.
Proof. vm_compute. done. Qed.

Example scenario_5 :
  let r := mbedtls_printf 8192 [VPtr 12288] ten_x in
  retval r = 0 ∧ final r = ten_x ∧ events r = [].
Proof. vm_compute. done. Qed.

(** *** The buffer write *)

(** C1. [mbedtls_snprintf] called with a capacity above zero and a buffer
    pointer that is not null makes exactly one access, the store of a null
    byte at offset zero of the buffer, after which that byte is the
    terminator and every other byte of memory is what it was; called with
    capacity zero or a null pointer it makes no access and leaves memory
    as it was. *)
Theorem snprintf_writes_one_terminator (s : ptr) (n : size_t) (fmt : ptr)
    (args : list cval) (m : gmap Z byte) :
  let r := mbedtls_snprintf s n fmt args m in
  ((0 < n)%N ∧ s ≠ NULL →
     events r = [EvStore (index s 0) nul] ∧
     final r !! index s 0 = Some nul ∧
     ∀ a, a ≠ index s 0 → final r !! a = m !! a)
  ∧ (n = 0%N ∨ s = NULL → events r = [] ∧ final r = m).
Proof.
  intros r. subst r. rewrite snprintf_run, index_0. split.
  - intros Hw. apply may_write_true in Hw. rewrite Hw. cbn.
    split_and!; [done | apply lookup_insert_eq |].
    intros a Ha. by apply lookup_insert_ne.
  - intros Hw. apply may_write_false in Hw. by rewrite Hw.
Qed.

Lemma snprintf_writes_one_terminator_witness :
  let r := mbedtls_snprintf 4096 10%N 8192 [VInt 42] ten_x in
  (events r = [EvStore 4096 nul] ∧ final r !! 4096 = Some nul ∧
   final r !! 4097 = ten_x !! 4097)
  ∧ (let r0 := mbedtls_snprintf 4096 0%N 8192 [VInt 42] ten_x in
     events r0 = [] ∧ final r0 = ten_x).
Proof.
  split.
  - destruct (snprintf_writes_one_terminator 4096 10%N 8192 [VInt 42] ten_x)
      as [Hw _].
    destruct Hw as (He & Hs & Ho); [split; [reflexivity | discriminate] |].
    split_and!; [exact He | exact Hs | apply Ho; discriminate].
  - destruct (snprintf_writes_one_terminator 4096 0%N 8192 [VInt 42] ten_x)
      as [_ Hn].
    apply Hn. left. reflexivity.
Defined.

(** C2. [mbedtls_vsnprintf] does to memory, and returns, what
    [mbedtls_snprintf] does and returns for the same buffer, capacity and
    format, whatever either is given as arguments: the [va_list] has no
    influence on the outcome. *)
Theorem vsnprintf_same_as_snprintf (s : ptr) (n : size_t) (fmt : ptr)
    (ap ap' : va_list) (args : list cval) (m : gmap Z byte) :
  mbedtls_vsnprintf s n fmt ap m = mbedtls_snprintf s n fmt args m
  ∧ mbedtls_vsnprintf s n fmt ap m = mbedtls_vsnprintf s n fmt ap' m.
Proof.
  split.
  - etrans; [apply vsnprintf_run | symmetry; apply snprintf_run].
  - etrans; [apply vsnprintf_run | symmetry; apply vsnprintf_run].
Qed.

(** C3. Every call of [mbedtls_printf], [mbedtls_snprintf] or
    [mbedtls_vsnprintf] returns zero, a value that is not negative,
    whatever the format, the arguments, the capacity and the buffer
    pointer (null included), and whatever memory holds. *)
Theorem stubs_return_zero (c : call) (m : gmap Z byte) :
  retval (run c m) = 0 ∧ 0 ≤ retval (run c m).
Proof.
  assert (retval (run c m) = 0) as ->; [|done].
  destruct c as [fmt args | s n fmt args | s n fmt ap]; cbn [run].
  - by rewrite printf_run.
  - rewrite snprintf_run. by destruct (may_write s n).
  - rewrite vsnprintf_run. by destruct (may_write s n).
Qed.

(** C4. With capacity zero, [mbedtls_snprintf] and [mbedtls_vsnprintf]
    make no access to memory at all, whatever the buffer pointer is: memory
    stays as it was, and the call is free of faults even when no address is
    mapped, as for a dangling or one-past-the-end pointer. *)
Theorem zero_capacity_never_dereferences (s fmt : ptr) (args : list cval)
    (ap : va_list) (m : gmap Z byte) (mapped : gset Z) :
  let r1 := mbedtls_snprintf s 0%N fmt args m in
  let r2 := mbedtls_vsnprintf s 0%N fmt ap m in
  (events r1 = [] ∧ final r1 = m ∧ faultless mapped (events r1) = true)
  ∧ (events r2 = [] ∧ final r2 = m ∧ faultless mapped (events r2) = true).
Proof.
  cbn zeta. by rewrite snprintf_run, vsnprintf_run.
Qed.

(** C5. With a null buffer pointer, [mbedtls_snprintf] and
    [mbedtls_vsnprintf] make no access to memory at all, whatever the
    capacity: memory stays as it was and the call is free of faults, no
    store going through the null pointer. *)
Theorem null_buffer_never_written (n : size_t) (fmt : ptr) (args : list cval)
    (ap : va_list) (m : gmap Z byte) (mapped : gset Z) :
  let r1 := mbedtls_snprintf NULL n fmt args m in
  let r2 := mbedtls_vsnprintf NULL n fmt ap m in
  (events r1 = [] ∧ final r1 = m ∧ faultless mapped (events r1) = true)
  ∧ (events r2 = [] ∧ final r2 = m ∧ faultless mapped (events r2) = true).
Proof.
  cbn zeta. rewrite snprintf_run, vsnprintf_run.
  assert (may_write NULL n = false) as ->; [|done].
  apply may_write_false. by right.
Qed.

(** C6. [mbedtls_printf] makes no output and no access to memory, leaves
    memory as it was and returns zero, for every format pointer, null or
    not, and every list of arguments. *)
Theorem printf_is_inert (fmt : ptr) (args : list cval) (m : gmap Z byte) :
  let r := mbedtls_printf fmt args m in
  events r = [] ∧ final r = m ∧ retval r = 0.
Proof. done. Qed.

(** *** What a call depends on, and what it touches *)

(** A run of any call: zero is returned, and the terminator is stored at
    the call's target when it has one. *)
Lemma run_spec (c : call) (m : gmap Z byte) :
  run c m =
    match write_target c with
    | Some s => Result 0 (<[s := nul]> m) [EvStore s nul]
    | None => Result 0 m []
    end.
Proof.
  destruct c as [fmt args | s n fmt args | s n fmt ap];
    cbn [run write_target buffer_of].
  - apply printf_run.
  - rewrite snprintf_run. by destruct (may_write s n).
  - rewrite vsnprintf_run. by destruct (may_write s n).
Qed.

(** The target of a call is the first byte of its buffer. *)
Lemma write_target_in_buffer (c : call) (a : ptr) :
  write_target c = Some a →
  ∃ n, buffer_of c = Some (a, n) ∧ in_buffer a n a.
Proof.
  unfold write_target. destruct (buffer_of c) as [[s n]|]; [|done].
  destruct (may_write s n) eqn:Hw; [|done].
  intros [= <-]. apply may_write_true in Hw as [Hn Hs].
  exists n. split; [done|]. unfold in_buffer. lia.
Qed.

(** Calls that go to the same stub with the same buffer and capacity have
    the same target. *)
Lemma write_target_same_buffer (c1 c2 : call) :
  buffer_of c1 = buffer_of c2 → write_target c1 = write_target c2.
Proof. unfold write_target. by intros ->. Qed.

(** Two stores of the terminator can be made in either order. *)
Lemma store_nul_commute (a b : ptr) (m : gmap Z byte) :
  <[a := nul]> (<[b := nul]> m) = <[b := nul]> (<[a := nul]> m).
Proof.
  destruct (decide (a = b)) as [->|Hne]; [done|].
  by apply insert_insert_ne.
Qed.

(** *** The run of several calls *)

Lemma run_all_cons (c : call) (cs : list call) (m : gmap Z byte) :
  final (run_all (c :: cs) m) = final (run_all cs (final (run c m))).
Proof. reflexivity. Qed.

(** The memory a series of calls leaves does not depend on their order. *)
Lemma run_all_final_perm (cs cs' : list call) :
  cs ≡ₚ cs' → ∀ m, final (run_all cs m) = final (run_all cs' m).
Proof.
  induction 1 as [| c cs cs' _ IH | c d cs | cs1 cs2 cs3 _ IH1 _ IH2];
    intros m.
  - done.
  - rewrite !run_all_cons. apply IH.
  - rewrite !run_all_cons, !run_spec.
    destruct (write_target c) as [s|], (write_target d) as [t|]; cbn;
      [by rewrite store_nul_commute | done..].
  - by rewrite IH1.
Qed.

(** C7. No stub looks at its format or at its arguments: two calls of the
    same stub with the same buffer pointer and capacity, whatever their
    formats and arguments, and whatever memory holds where the format
    strings lie, return the same value and make the same accesses, none of
    them a load; the memories they leave agree wherever the memories they
    started in agreed, and are equal when those were. *)
Theorem format_and_arguments_never_inspected (c1 c2 : call)
    (m1 m2 : gmap Z byte) :
  stub_of c1 = stub_of c2 →
  buffer_of c1 = buffer_of c2 →
  let r1 := run c1 m1 in
  let r2 := run c2 m2 in
  retval r1 = retval r2
  ∧ events r1 = events r2
  ∧ (∀ a, m1 !! a = m2 !! a → final r1 !! a = final r2 !! a)
  ∧ (m1 = m2 → r1 = r2)
  ∧ (∀ e, e ∈ events r1 → is_load e = false).
Proof.
  intros _ Hbuf r1 r2. subst r1 r2. rewrite !run_spec.
  rewrite (write_target_same_buffer c1 c2 Hbuf).
  destruct (write_target c2) as [s|]; cbn.
  - split_and!; [done | done | | by intros -> |].
    + intros a Ha. destruct (decide (s = a)) as [->|Hne].
      * by rewrite !lookup_insert_eq.
      * by rewrite !lookup_insert_ne.
    + intros e He. apply list_elem_of_singleton in He. by subst e.
  - split_and!; [done | done | done | by intros -> |].
    intros e He. by apply elem_of_nil in He.
Qed.

Lemma format_and_arguments_never_inspected_witness :
  let r1 := run (CallSnprintf 4096 10%N 8192 [VInt 42]) ten_x in
  let r2 := run (CallSnprintf 4096 10%N NULL [VPtr 8192; VInt 7])
                (<[8192 := x25]> ten_x) in
  retval r1 = retval r2 ∧ events r1 = events r2
  ∧ final r1 !! 4096 = final r2 !! 4096.
Proof.
  destruct (format_and_arguments_never_inspected
              (CallSnprintf 4096 10%N 8192 [VInt 42])
              (CallSnprintf 4096 10%N NULL [VPtr 8192; VInt 7])
              ten_x (<[8192 := x25]> ten_x) eq_refl eq_refl)
    as (Hr & He & Hf & _).
  split_and!; [exact Hr | exact He | apply Hf; reflexivity].
Defined.

(** C8. A call depends on nothing but its arguments and touches nothing but
    its buffer: the value it returns and the accesses it makes are the same
    in any two memories, in particular in the memory any earlier calls
    left; every access is the store of the terminator at the start of the
    caller's buffer, so nothing is loaded and nothing is output; memory
    outside the buffer is left as it was; and a series of calls leaves the
    same memory in whichever order they run. *)
Theorem stubs_are_self_contained (c : call) (m1 m2 : gmap Z byte) :
  (retval (run c m1) = retval (run c m2)
   ∧ events (run c m1) = events (run c m2))
  ∧ (∀ e, e ∈ events (run c m1) →
       ∃ s n, buffer_of c = Some (s, n) ∧ in_buffer s n s ∧ e = EvStore s nul)
  ∧ (∀ a, outside_buffer c a → final (run c m1) !! a = m1 !! a)
  ∧ (∀ cs, let m' := final (run_all cs m1) in
       retval (run c m') = retval (run c m1)
       ∧ events (run c m') = events (run c m1))
  ∧ (∀ cs cs', cs ≡ₚ cs' →
       final (run_all cs m1) = final (run_all cs' m1)).
Proof.
  split_and!.
  - rewrite !run_spec. by destruct (write_target c).
  - rewrite !run_spec. by destruct (write_target c).
  - rewrite run_spec. intros e He.
    destruct (write_target c) as [s|] eqn:Ht; cbn in He.
    + apply list_elem_of_singleton in He. subst e.
      destruct (write_target_in_buffer c s Ht) as (n & Hb & Hin).
      by exists s, n.
    + by apply elem_of_nil in He.
  - intros a Hout. rewrite run_spec.
    destruct (write_target c) as [s|] eqn:Ht; [|done]. cbn.
    destruct (write_target_in_buffer c s Ht) as (n & Hb & Hin).
    unfold outside_buffer in Hout. rewrite Hb in Hout.
    apply lookup_insert_ne. by intros ->.
  - intros cs m'. rewrite !run_spec. by destruct (write_target c).
  - intros cs cs' Hp. by apply run_all_final_perm.
Qed.

(** C10. [mbedtls_snprintf] and [mbedtls_vsnprintf] are idempotent on
    memory: a second call with the same buffer pointer and capacity, made
    right after the first, leaves memory as the first left it and returns
    what the first returned. *)
Theorem buffer_stubs_idempotent (s : ptr) (n : size_t) (fmt fmt' : ptr)
    (args args' : list cval) (ap ap' : va_list) (m : gmap Z byte) :
  (let once := mbedtls_snprintf s n fmt args m in
   let twice := mbedtls_snprintf s n fmt' args' (final once) in
   final twice = final once ∧ retval twice = retval once)
  ∧ (let once := mbedtls_vsnprintf s n fmt ap m in
     let twice := mbedtls_vsnprintf s n fmt' ap' (final once) in
     final twice = final once ∧ retval twice = retval once).
Proof.
  cbn zeta. split.
  - rewrite (snprintf_run s n fmt' args'), (snprintf_run s n fmt args).
    destruct (may_write s n); cbn; [|done].
    by rewrite insert_insert_eq.
  - rewrite (vsnprintf_run s n fmt' ap'), (vsnprintf_run s n fmt ap).
    destruct (may_write s n); cbn; [|done].
    by rewrite insert_insert_eq.
Qed.

(** ** Properties of the declarations *)

Import Decls.

(** The headers do not declare [mbedtls_printf]; its definition does. *)
Remark mbedtls_printf_declared_by_its_definition :
  ("mbedtls_printf"%string ∉ (decl_name <$> headers))
  ∧ "mbedtls_printf"%string ∈ (decl_name <$> rust_printf_c).
Proof. split; apply (bool_decide_unpack _); vm_compute; exact I. Qed.

(** The definitions of [rust_printf.c] have the prototypes [stdio.h]
    declares for them. *)
Remark definitions_agree_with_stdio_h :
  Forall (agrees_with stdio_h) rust_printf_c.
Proof. apply (bool_decide_unpack _). vm_compute. exact I. Qed.

(** C9. The sources declare every symbol of the binding contract with the
    name, the parameter types and the return type the contract lists (for
    the types, the definition it lists); no declaration of theirs binds a
    name of the contract differently; and in particular each of [printf],
    [snprintf], [vsnprintf], [mbedtls_printf], [mbedtls_snprintf] and
    [mbedtls_vsnprintf] is declared, with the signature listed. *)
Theorem declaration_surface_meets_contract :
  Forall (declares declaration_surface) binding_contract
  ∧ Forall (agrees_with binding_contract) declaration_surface
  ∧ Forall (declared_as binding_contract declaration_surface)
      formatted_output_symbols.
Proof.
  split_and!; apply (bool_decide_unpack _); vm_compute; exact I.
Qed.

(** ** Further properties of the no-op formatter *)

Import Series.

(** One call followed by a series, in full. *)
Lemma run_all_cons_result (c : call) (cs : list call) (m : gmap Z byte) :
  run_all (c :: cs) m =
    Result (retval (run c m) :: retval (run_all cs (final (run c m))))
           (final (run_all cs (final (run c m))))
           (events (run c m) ++ events (run_all cs (final (run c m)))).
Proof.
  cbn [run_all]. unfold mbind, M_bind, mret, M_ret. cbn.
  by rewrite app_nil_r.
Qed.

Lemma targets_cons (c : call) (cs : list call) :
  targets (c :: cs) =
    match write_target c with
    | Some s => s :: targets cs
    | None => targets cs
    end.
Proof. reflexivity. Qed.

(** A target is the start of a buffer of capacity above zero, and is not
    null. *)
Lemma write_target_nonnull (c : call) (s : ptr) :
  write_target c = Some s → s ≠ NULL.
Proof.
  intros Ht. destruct (write_target_in_buffer c s Ht) as (n & _ & Hs & _).
  exact Hs.
Qed.

(** X1. The accesses of [mbedtls_snprintf] and of [mbedtls_vsnprintf] are
    free of faults exactly when the capacity is zero, or the buffer pointer
    is null, or the first byte of the buffer is mapped: no other byte of
    the buffer needs to be, and a pointer that is not null is written
    through unchecked whenever the capacity is above zero. *)
Theorem stub_faults_iff_first_byte_unmapped (s : ptr) (n : size_t)
    (fmt : ptr) (args : list cval) (ap : va_list) (m : gmap Z byte)
    (mapped : gset Z) :
  (faultless mapped (events (mbedtls_snprintf s n fmt args m)) = true
     ↔ n = 0%N ∨ s = NULL ∨ s ∈ mapped)
  ∧ (faultless mapped (events (mbedtls_vsnprintf s n fmt ap m)) = true
       ↔ n = 0%N ∨ s = NULL ∨ s ∈ mapped).
Proof.
  assert (faultless mapped
            (events (if may_write s n
                     then Result 0 (<[s := nul]> m) [EvStore s nul]
                     else Result 0 m []))
          = true ↔ n = 0%N ∨ s = NULL ∨ s ∈ mapped) as Hiff.
  { destruct (may_write s n) eqn:Hw; cbn.
    - apply may_write_true in Hw as [Hn Hs].
      unfold access_ok. cbn.
      rewrite andb_true_r, andb_true_iff, nonnull_true, bool_decide_eq_true.
      split; [intros [_ Hin]; auto | intros [?|[?|?]]; [lia | done | done]].
    - apply may_write_false in Hw. split; [tauto | done]. }
  split.
  - by rewrite snprintf_run.
  - by rewrite vsnprintf_run.
Qed.

(** The values returned by, and the accesses of, a series of calls. *)
Lemma run_all_trace (cs : list call) (m : gmap Z byte) :
  retval (run_all cs m) = replicate (length cs) 0
  ∧ events (run_all cs m) = (λ s, EvStore s nul) <$> targets cs.
Proof.
  revert m. induction cs as [|c cs IH]; intros m; [done|].
  destruct (IH (final (run c m))) as (Hr & He).
  rewrite run_all_cons_result, targets_cons. cbn [retval events].
  rewrite Hr, He, run_spec.
  by destruct (write_target c) as [s|].
Qed.

Lemma targets_length (cs : list call) :
  (length (targets cs) ≤ length cs)%nat.
Proof.
  induction cs as [|c cs IH]; [done|].
  rewrite targets_cons. destruct (write_target c); cbn; lia.
Qed.

(** X3. A series of calls returns zero from each of them and makes, in
    order, one store of the terminator for each call that has a target and
    nothing else: never more accesses than calls. *)
Theorem series_trace (cs : list call) (m : gmap Z byte) :
  retval (run_all cs m) = replicate (length cs) 0
  ∧ events (run_all cs m) = (λ s, EvStore s nul) <$> targets cs
  ∧ (length (events (run_all cs m)) ≤ length cs)%nat.
Proof.
  destruct (run_all_trace cs m) as (Hr & He).
  split_and!; [done | done |].
  rewrite He, length_fmap. apply targets_length.
Qed.

(** What a byte of memory holds after a series of calls. *)
Lemma run_all_lookup (cs : list call) (m : gmap Z byte) (a : ptr) :
  final (run_all cs m) !! a =
    if decide (a ∈ targets cs) then Some nul else m !! a.
Proof.
  revert m. induction cs as [|c cs IH]; intros m.
  - cbn. by rewrite decide_False by apply not_elem_of_nil.
  - rewrite run_all_cons, IH, targets_cons, run_spec.
    destruct (write_target c) as [s|]; cbn; [|done].
    destruct (decide (a ∈ targets cs)) as [Hin|Hout].
    + by rewrite decide_True by (by apply list_elem_of_further).
    + destruct (decide (s = a)) as [->|Hne].
      * rewrite lookup_insert_eq.
        by rewrite decide_True by apply list_elem_of_here.
      * rewrite lookup_insert_ne by done.
        rewrite decide_False; [done|].
        intros [?|?]%elem_of_cons; congruence.
Qed.

(** An address is a target of a series when some call of the series was
    given it as a buffer pointer that is not null, with a capacity above
    zero. *)
Lemma elem_of_targets (cs : list call) (a : ptr) :
  a ∈ targets cs
  ↔ ∃ c n, c ∈ cs ∧ buffer_of c = Some (a, n) ∧ (0 < n)%N ∧ a ≠ NULL.
Proof.
  unfold targets. rewrite list_elem_of_omap. split.
  - intros (c & Hc & Ht). exists c.
    unfold write_target in Ht.
    destruct (buffer_of c) as [[s n]|] eqn:Hb; [|done].
    destruct (may_write s n) eqn:Hw; [|done].
    injection Ht as ->. apply may_write_true in Hw as [Hn Hs].
    by exists n.
  - intros (c & n & Hc & Hb & Hn & Ha). exists c. split; [done|].
    unfold write_target. rewrite Hb.
    by rewrite (proj2 (may_write_true a n) (conj Hn Ha)).
Qed.

(** X4. After a series of calls a byte of memory is the terminator if
    some call of the series was given its address as a buffer pointer that
    is not null, with a capacity above zero, and is what it was before the
    series otherwise. *)
Theorem series_final_memory (cs : list call) (m : gmap Z byte) (a : ptr) :
  final (run_all cs m) !! a =
    (if decide (a ∈ targets cs) then Some nul else m !! a)
  ∧ (a ∈ targets cs
     ↔ ∃ c n, c ∈ cs ∧ buffer_of c = Some (a, n) ∧ (0 < n)%N ∧ a ≠ NULL).
Proof. split; [apply run_all_lookup | apply elem_of_targets]. Qed.

(** Stores of the terminator are free of faults when each goes to a
    mapped address that is not null. *)
Lemma faultless_stores (mapped : gset Z) (l : list ptr) :
  faultless mapped ((λ s, EvStore s nul) <$> l) = true
  ↔ ∀ s, s ∈ l → s ≠ NULL ∧ s ∈ mapped.
Proof.
  induction l as [|t l IH]; cbn.
  - split; [|done]. intros _ s Hs. by apply elem_of_nil in Hs.
  - unfold faultless in IH.
    rewrite andb_true_iff, IH. unfold access_ok. cbn.
    rewrite andb_true_iff, nonnull_true, bool_decide_eq_true.
    split.
    + intros [Ht Hl] s [->|Hs]%elem_of_cons; auto.
    + intros H. split.
      * apply H, list_elem_of_here.
      * intros s Hs. by apply H, list_elem_of_further.
Qed.

(** X2. When every call of a series is given a buffer that is mapped (all
    of its bytes, for a pointer that is not null), the series is free of
    faults, whatever the formats and arguments are and whatever memory
    holds. *)
Theorem series_safe_on_mapped_buffers (cs : list call) (m : gmap Z byte)
    (mapped : gset Z) :
  (∀ c, c ∈ cs → buffer_mapped mapped c) →
  faultless mapped (events (run_all cs m)) = true.
Proof.
  intros Hcs.
  destruct (run_all_trace cs m) as (_ & ->).
  apply faultless_stores. intros s Hs.
  apply list_elem_of_omap in Hs as (c & Hc & Ht).
  split; [by eapply write_target_nonnull|].
  destruct (write_target_in_buffer c s Ht) as (n & Hb & Hin).
  specialize (Hcs c Hc). unfold buffer_mapped in Hcs. rewrite Hb in Hcs.
  by apply Hcs.
Qed.

Lemma series_safe_on_mapped_buffers_witness :
  faultless two_buffers
    (events (run_all [CallSnprintf 4096 4%N 8192 [VInt 42];
                      CallVsnprintf 4100 4%N NULL [];
                      CallPrintf 8192 [VPtr 4096];
                      CallSnprintf NULL 9%N 8192 []] ten_x)) = true.
Proof.
  apply series_safe_on_mapped_buffers.
  intros c Hc. unfold buffer_mapped.
  apply elem_of_cons in Hc as [-> | Hc]; cbn.
  { intros a [_ Ha].
    assert (a = 4096 ∨ a = 4097 ∨ a = 4098 ∨ a = 4099) as Hcase by lia.
    destruct Hcase as [-> | [-> | [-> | ->]]];
      apply (bool_decide_unpack _); vm_compute; exact I. }
  apply elem_of_cons in Hc as [-> | Hc]; cbn.
  { intros a [_ Ha].
    assert (a = 4100 ∨ a = 4101 ∨ a = 4102 ∨ a = 4103) as Hcase by lia.
    destruct Hcase as [-> | [-> | [-> | ->]]];
      apply (bool_decide_unpack _); vm_compute; exact I. }
  apply elem_of_cons in Hc as [-> | Hc]; cbn; [exact I|].
  apply elem_of_cons in Hc as [-> | Hc]; cbn.
  { intros a [Hnull _]. by destruct Hnull. }
  by apply elem_of_nil in Hc.
Defined.

(** X5. Calls whose targets were all targets of earlier calls change
    nothing: a series followed by such calls leaves the memory the series
    left. In particular a series made twice leaves what it left the first
    time. *)
Theorem series_absorbs_repeats (cs1 cs2 : list call) (m : gmap Z byte) :
  targets cs2 ⊆ targets cs1 →
  final (run_all (cs1 ++ cs2) m) = final (run_all cs1 m).
Proof.
  intros Hsub. apply map_eq. intros a.
  rewrite !run_all_lookup. unfold targets in *. rewrite omap_app.
  repeat case_decide; [done | | | done].
  - exfalso.
    match goal with H : _ ∈ _ ++ _ |- _ =>
      apply elem_of_app in H as [Hin1 | Hin2] end; [done|].
    by apply Hsub in Hin2.
  - exfalso. match goal with H : _ ∉ _ |- _ => apply H end.
    apply elem_of_app. by left.
Qed.

Lemma series_absorbs_repeats_witness :
  final (run_all ([CallSnprintf 4096 10%N 8192 [VInt 42];
                   CallVsnprintf 4100 4%N 8192 []]
                  ++ [CallVsnprintf 4096 3%N NULL [VInt 1];
                      CallPrintf 8192 []]) ten_x)
  = final (run_all [CallSnprintf 4096 10%N 8192 [VInt 42];
                    CallVsnprintf 4100 4%N 8192 []] ten_x).
Proof.
  apply series_absorbs_repeats.
  intros a Ha. apply list_elem_of_singleton in Ha. subst a.
  apply list_elem_of_here.
Defined.

(** X6. A series of calls whose targets all hold the terminator already
    leaves memory exactly as it was: a call on a buffer that holds the
    empty string changes nothing. *)
Theorem series_on_empty_strings_is_noop (cs : list call) (m : gmap Z byte) :
  (∀ s, s ∈ targets cs → m !! s = Some nul) →
  final (run_all cs m) = m.
Proof.
  intros Hnul. apply map_eq. intros a.
  rewrite run_all_lookup.
  case_decide; [|done].
  symmetry. by apply Hnul.
Qed.

Lemma series_on_empty_strings_is_noop_witness :
  final (run_all [CallSnprintf 4096 10%N 8192 [VInt 42];
                  CallVsnprintf 4096 1%N 8192 []]
                 (<[4096 := nul]> ten_x))
  = <[4096 := nul]> ten_x.
Proof.
  apply series_on_empty_strings_is_noop.
  intros s Hs.
  apply elem_of_cons in Hs as [-> | Hs]; [reflexivity|].
  apply list_elem_of_singleton in Hs. subst s. reflexivity.
Defined.

(** ** Further properties of the declarations *)

Import Scope.

(** X7. Each definition of [rust_printf.c] whose name [stdio.h] declares
    has the return type, the parameter types and the variadic flag of that
    prototype (only parameter names differ), and [stdio.h] does declare
    [mbedtls_snprintf] and [mbedtls_vsnprintf]: a file that includes the
    header and holds the definitions has no conflicting types. *)
Theorem definitions_match_prototypes :
  Forall (agrees_with stdio_h) rust_printf_c
  ∧ Forall (declared_as rust_printf_c stdio_h)
      ["mbedtls_snprintf"; "mbedtls_vsnprintf"]%string.
Proof.
  split; apply (bool_decide_unpack _); vm_compute; exact I.
Qed.

(** X8. Each hook of the library ([mbedtls_printf], [mbedtls_snprintf],
    [mbedtls_vsnprintf], [mbedtls_platform_calloc],
    [mbedtls_platform_free]) is declared with the very return type,
    parameter types and variadic flag of the C library function it stands
    for, so either can be used where the other is expected. *)
Theorem hooks_have_libc_types :
  Forall (λ p, is_Some (type_of_fun declaration_surface p.1)
               ∧ type_of_fun declaration_surface p.1
                 = type_of_fun declaration_surface p.2) hooks.
Proof.
  apply (bool_decide_unpack _). vm_compute. exact I.
Qed.

(** Without [stddef.h], [string.h] would use a type name that is out of
    scope; with [stddef.h] alone, [stdio.h] would. *)
Example string_h_needs_stddef :
  well_scoped [] string_h = false
  ∧ well_scoped (least_toolchain "stddef.h") stdio_h = false.
Proof. split; vm_compute; reflexivity. Qed.

Lemma well_scoped_mono (ds : list decl) :
  ∀ known known', known ⊆ known' →
  well_scoped known ds = true → well_scoped known' ds = true.
Proof.
  induction ds as [|d ds IH]; intros known known' Hsub; [done|].
  cbn [well_scoped]. rewrite !andb_true_iff, !forallb_forall.
  intros [Huses Hrest]. split.
  - intros name Hname. apply bool_decide_eq_true.
    specialize (Huses name Hname). apply bool_decide_eq_true in Huses.
    by apply Hsub.
  - apply (IH (decl_defines d ++ known)); [|done].
    intros name [?|?]%elem_of_app; apply elem_of_app; auto.
Qed.

Section Toolchain.

Variable provides : string → list string.
Hypothesis stddef_size_t : "size_t"%string ∈ provides "stddef.h"%string.
Hypothesis stdarg_va_list : "va_list"%string ∈ provides "stdarg.h"%string.

Lemma least_toolchain_provided (h : string) :
  least_toolchain h ⊆ provides h.
Proof.
  unfold least_toolchain. intros name Hname.
  repeat case_decide; subst.
  - apply list_elem_of_singleton in Hname. by subst name.
  - apply list_elem_of_singleton in Hname. by subst name.
  - by apply elem_of_nil in Hname.
Qed.

Lemma initial_scope_least (f : file) :
  initial_scope least_toolchain f ⊆ initial_scope provides f.
Proof.
  unfold initial_scope. intros name Hname.
  apply list_elem_of_bind in Hname as (h & Hname & Hh).
  apply list_elem_of_bind. exists h. split; [|done].
  by apply least_toolchain_provided.
Qed.

(** X9. Every file of the sources is well scoped: read top to bottom,
    each declaration uses only type names that the toolchain headers the
    file includes provide, or that an earlier declaration of the same file
    defines. All the sources need of the toolchain is [size_t] from
    [stddef.h] and [va_list] from [stdarg.h]. *)
Theorem files_well_scoped :
  Forall (λ f, well_scoped (initial_scope provides f) (decls f) = true) files.
Proof.
  assert (Forall (λ f, well_scoped (initial_scope least_toolchain f)
                         (decls f) = true) files) as Hleast.
  { repeat constructor. }
  eapply Forall_impl; [exact Hleast|].
  intros f Hf. eapply well_scoped_mono; [apply initial_scope_least | exact Hf].
Qed.

End Toolchain.

Lemma files_well_scoped_witness :
  Forall (λ f, well_scoped (initial_scope least_toolchain f) (decls f) = true)
    files.
Proof.
  apply (files_well_scoped least_toolchain).
  - apply (bool_decide_unpack _). vm_compute. exact I.
  - apply (bool_decide_unpack _). vm_compute. exact I.
Defined.
